(** * second.py: the second-largest value of a sequence, two ways

    The module has two functions over a Python list of integers:
    [second_for], a single left-to-right pass keeping two running slots, and
    [second_sort], which sorts a copy and indexes it at [-2].

    Python integers are unbounded, so values are [Z].  A call either returns
    a value or raises an exception; both are kept in [outcome].

    The functions are not typed: module [Dyn] holds [second_for] once more
    over lists that may also hold strings, where the comparison with the
    integer sentinel can raise [TypeError]. *)

From Stdlib Require Import ZArith List Lia Permutation Sorted.
From stdpp Require Import gmap sorting strings.

Local Open Scope Z_scope.

(** ** Outcomes of a call *)

Inductive exn : Set :=
| IndexError
| TypeError.

Inductive outcome (A : Type) : Type :=
| Return (v : A)
| Raise (e : exn).

Arguments Return {A} v.
Arguments Raise {A} e.

(** ** Built-ins used by the module *)

Section Sorting.
Context {A : Type} (before : A -> A -> bool).

(** [x] goes in front of the first element it may precede, so that of two
    elements neither of which must follow the other, the one that came
    first in the input stays first (stability). *)
Fixpoint insert_sorted (x : A) (l : list A) : list A :=
  match l with
  | [] => [x]
  | y :: l' => if before x y then x :: y :: l' else y :: insert_sorted x l'
  end.

Definition sort_by (l : list A) : list A :=
  fold_right insert_sorted [] l.
End Sorting.

(** [sorted(values)]: a new list, ascending, stable. *)
Definition sorted (values : list Z) : list Z := sort_by Z.leb values.

(** [values[i]] on a list: a negative index counts from the end, and an
    index outside the list raises [IndexError]. *)
Definition getitem (values : list Z) (i : Z) : outcome Z :=
  let n := Z.of_nat (length values) in
  let j := if i <? 0 then i + n else i in
  if (j <? 0) || (n <=? j) then Raise IndexError
  else match nth_error values (Z.to_nat j) with
       | Some v => Return v
       | None => Raise IndexError
       end.

(** ** [second_for] *)

(** One iteration of the loop body on the pair [(first, second)]. *)
Definition for_body (st : Z * Z) (val : Z) : Z * Z :=
  let '(first, second) := st in
  if val >? first then (val, first)
  else if val >? second then (first, val)
  else (first, second).

Definition for_loop (values : list Z) (st : Z * Z) : Z * Z :=
  fold_left for_body values st.

Definition second_for (values : list Z) : outcome Z :=
  let '(first, second) := for_loop values (-1, -1) in
  Return second.

(** ** [second_for] on untyped values

    A list element is an integer or a string.  [a > b] compares two integers
    or two strings (by code points) and raises [TypeError] on a mixed pair.
    The comparisons of the loop body are made in the order the source makes
    them, the [elif] one only when the [if] one returned [False]. *)

Inductive pyval : Set :=
| PInt (z : Z)
| PStr (s : string).

Definition bind {A B : Type} (m : outcome A) (k : A -> outcome B) : outcome B :=
  match m with
  | Return v => k v
  | Raise e => Raise e
  end.

Module Dyn.

Definition gt (a b : pyval) : outcome bool :=
  match a, b with
  | PInt x, PInt y => Return (x >? y)
  | PStr x, PStr y => Return (String.ltb y x)
  | _, _ => Raise TypeError
  end.

Definition for_body (st : pyval * pyval) (val : pyval)
  : outcome (pyval * pyval) :=
  let '(first, second) := st in
  bind (gt val first) (fun above_first =>
  if above_first then Return (val, first)
  else
    bind (gt val second) (fun above_second =>
    if above_second then Return (first, val)
    else Return (first, second))).

Fixpoint for_loop (values : list pyval) (st : pyval * pyval)
  : outcome (pyval * pyval) :=
  match values with
  | [] => Return st
  | val :: values' => bind (for_body st val) (for_loop values')
  end.

Definition second_for (values : list pyval) : outcome pyval :=
  bind (for_loop values (PInt (-1), PInt (-1))) (fun '(first, second) =>
  Return second).

End Dyn.

(** ** [second_sort] *)

Definition second_sort (values : list Z) : outcome Z :=
  let values := sorted values in
  getitem values (-2).

(** ** [second_sort] over a store of list objects

    A Python list is an object in the store and a variable holds a reference
    to it.  [sorted] reads its argument and allocates a new object; the
    assignment [values = sorted(values)] rebinds the local name only. *)

Definition loc := positive.

Definition alloc (l : list Z) (h : gmap loc (list Z)) : loc * gmap loc (list Z) :=
  let r := fresh (dom h) in (r, <[r := l]> h).

Definition sorted_st (values : loc) (h : gmap loc (list Z))
  : option (loc * gmap loc (list Z)) :=
  l ← h !! values;
  Some (alloc (sorted l) h).

Definition second_sort_st (values : loc) (h : gmap loc (list Z))
  : option (outcome Z * gmap loc (list Z)) :=
  '(values, h) ← sorted_st values h;
  l ← h !! values;
  Some (getitem l (-2), h).

(** ** Executable reference notions used in the statements *)

(** [sorted(values, reverse=True)]: descending, stable. *)
Definition sorted_desc (values : list Z) : list Z := sort_by Z.geb values.

(** The second-largest element of a list counted with multiplicity, when the
    list has two elements. *)
Definition second_largest (values : list Z) : option Z :=
  nth_error (sorted_desc values) 1.

(** The larger of [-1] and an optional value. *)
Definition max_sentinel (o : option Z) : Z :=
  match o with
  | Some v => Z.max (-1) v
  | None => -1
  end.

(** The order [sorted(records, key=key)] sorts by. *)
Definition before_key {B : Type} (key : B -> Z) (x y : B) : bool :=
  key x <=? key y.

(** [top2 st l]: the slots hold the two largest elements of the multiset [l],
    counted with multiplicity, the larger one in [first]. *)
Definition top2 (st : Z * Z) (l : list Z) : Prop :=
  exists rest,
    Permutation (fst st :: snd st :: rest) l
    /\ snd st <= fst st
    /\ Forall (fun x => x <= snd st) rest.

Example second_for_nil : second_for [] = Return (-1).
Proof. reflexivity. Qed.

Example second_sort_sample : second_sort [3; 1; 2] = Return 2.
Proof. reflexivity. Qed.

Example second_sort_st_sample :
  fst <$> second_sort_st 1%positive {[ 1%positive := [3; 1; 2] ]} = Some (Return 2).
Proof. vm_compute. reflexivity. Qed.

(** * Properties of the built-ins *)

Section SortingFacts.
Context {A : Type} (before : A -> A -> bool) (R : relation A).
Hypothesis before_true : forall x y, before x y = true -> R x y.
Hypothesis before_false : forall x y, before x y = false -> R y x.

Lemma insert_sorted_Permutation (x : A) (l : list A) :
  Permutation (insert_sorted before x l) (x :: l).
Proof using Type.
  induction l as [|y l IH]; simpl; [reflexivity|].
  destruct (before x y); [reflexivity|].
  rewrite IH. apply perm_swap.
Qed.

Lemma sort_by_Permutation (l : list A) : Permutation (sort_by before l) l.
Proof using Type.
  induction l as [|x l IH]; simpl; [constructor|].
  rewrite insert_sorted_Permutation. now constructor.
Qed.

Lemma sort_by_length (l : list A) : length (sort_by before l) = length l.
Proof using Type. apply Permutation_length, sort_by_Permutation. Qed.

Lemma insert_sorted_HdRel (a x : A) (l : list A) :
  R a x -> HdRel R a l -> HdRel R a (insert_sorted before x l).
Proof using Type.
  intros Hax Hl. destruct l as [|y l]; simpl; [now constructor|].
  destruct (before x y); constructor; [assumption|].
  now inversion Hl.
Qed.

Lemma insert_sorted_Sorted (x : A) (l : list A) :
  Sorted R l -> Sorted R (insert_sorted before x l).
Proof using before_true before_false.
  induction 1 as [|y l Hl IH Hy]; simpl; [repeat constructor|].
  destruct (before x y) eqn:E.
  - constructor; [now constructor|]. constructor. now apply before_true.
  - constructor; [assumption|].
    apply insert_sorted_HdRel; [now apply before_false | assumption].
Qed.

Lemma sort_by_Sorted (l : list A) : Sorted R (sort_by before l).
Proof using before_true before_false.
  induction l as [|x l IH]; simpl; [constructor|].
  now apply insert_sorted_Sorted.
Qed.
End SortingFacts.

#[local] Instance Zge_transitive : Transitive Z.ge.
Proof. intros x y z; lia. Qed.

#[local] Instance Zge_antisymm : AntiSymm (=) Z.ge.
Proof. intros x y; lia. Qed.

Lemma sorted_Permutation (values : list Z) : Permutation (sorted values) values.
Proof. apply sort_by_Permutation. Qed.

Lemma sorted_Sorted (values : list Z) : Sorted Z.le (sorted values).
Proof.
  apply sort_by_Sorted; intros x y H.
  - now apply Z.leb_le.
  - apply Z.leb_gt in H. lia.
Qed.

Lemma sorted_length (values : list Z) : length (sorted values) = length values.
Proof. apply sort_by_length. Qed.

Lemma sorted_desc_Permutation (values : list Z) :
  Permutation (sorted_desc values) values.
Proof. apply sort_by_Permutation. Qed.

Lemma sorted_desc_Sorted (values : list Z) : Sorted Z.ge (sorted_desc values).
Proof.
  apply sort_by_Sorted; intros x y H.
  - apply Z.geb_le in H. lia.
  - rewrite Z.geb_leb in H. apply Z.leb_gt in H. lia.
Qed.

(** On integers an ascending (or descending) arrangement of a multiset is
    unique, so every sort, stable or not, returns the same list. *)
Lemma ascending_unique (l1 l2 : list Z) :
  Sorted Z.le l1 -> Sorted Z.le l2 -> Permutation l1 l2 -> l1 = l2.
Proof. apply Sorted_unique; apply _. Qed.

Lemma descending_unique (l1 l2 : list Z) :
  Sorted Z.ge l1 -> Sorted Z.ge l2 -> Permutation l1 l2 -> l1 = l2.
Proof. apply Sorted_unique; apply _. Qed.

(** Stability of the sort, observable on keyed records: the records with a
    given key come out in their input order. *)
Section Stability.
Context {B : Type} (key : B -> Z).

Lemma insert_sorted_filter_key (k : Z) (x : B) (l : list B) :
  List.filter (fun b => key b =? k) (insert_sorted (before_key key) x l)
  = List.filter (fun b => key b =? k) (x :: l).
Proof using Type.
  induction l as [|y l IH]; [reflexivity|].
  simpl. unfold before_key at 1.
  destruct (Z.leb_spec (key x) (key y)) as [Hle|Hgt]; [reflexivity|].
  simpl in *. rewrite IH.
  destruct (Z.eqb_spec (key x) k), (Z.eqb_spec (key y) k); try reflexivity.
  lia.
Qed.

Lemma sort_by_stable (k : Z) (l : list B) :
  List.filter (fun b => key b =? k) (sort_by (before_key key) l)
  = List.filter (fun b => key b =? k) l.
Proof using Type.
  induction l as [|x l IH]; [reflexivity|].
  simpl sort_by. rewrite insert_sorted_filter_key.
  simpl. now rewrite IH.
Qed.
End Stability.

(** [getitem] at [-2]. *)
Lemma getitem_minus2_short (l : list Z) :
  (length l < 2)%nat -> getitem l (-2) = Raise IndexError.
Proof.
  intros H. unfold getitem. simpl.
  destruct (Z.ltb_spec (-2 + Z.of_nat (length l)) 0); [reflexivity | lia].
Qed.

Lemma getitem_minus2 (l : list Z) (d : Z) :
  (2 <= length l)%nat ->
  getitem l (-2) = Return (nth (length l - 2) l d).
Proof.
  intros H. unfold getitem. simpl.
  destruct (Z.ltb_spec (-2 + Z.of_nat (length l)) 0); [lia|].
  destruct (Z.leb_spec (Z.of_nat (length l)) (-2 + Z.of_nat (length l))); [lia|].
  simpl. replace (Z.to_nat (-2 + Z.of_nat (length l))) with (length l - 2)%nat by lia.
  destruct (nth_error l (length l - 2)) as [v|] eqn:E.
  - now rewrite (nth_error_nth _ _ _ E).
  - apply nth_error_None in E. lia.
Qed.

(** * The loop of [second_for] *)

Lemma for_loop_snoc (values : list Z) (val : Z) (st : Z * Z) :
  for_loop (values ++ [val]) st = for_body (for_loop values st) val.
Proof. unfold for_loop. now rewrite fold_left_app. Qed.

(** The body keeps the two largest of the three values at hand, in rank
    order, and drops the third. *)
Lemma for_body_keeps_top2 (first second val : Z) :
  second <= first ->
  exists first' second' dropped,
    for_body (first, second) val = (first', second')
    /\ second' <= first' /\ second <= second' /\ dropped <= second'
    /\ Permutation [first'; second'; dropped] [first; second; val].
Proof.
  intros Hle. unfold for_body.
  destruct (Z.gtb_spec val first) as [H1|H1];
    [|destruct (Z.gtb_spec val second) as [H2|H2]].
  - exists val, first, second. repeat split; try lia.
    change (Permutation ([val] ++ [first; second]) ([first; second] ++ [val])).
    apply Permutation_app_comm.
  - exists first, val, second. repeat split; try lia.
    apply perm_skip, perm_swap.
  - exists first, second, val. repeat split; try lia. reflexivity.
Qed.

Lemma for_loop_top2 (values : list Z) (first second : Z) :
  second <= first ->
  top2 (for_loop values (first, second)) (first :: second :: values)
  /\ second <= snd (for_loop values (first, second)).
Proof.
  intros Hle. induction values as [|val values IH] using rev_ind.
  - split; [|simpl; lia]. exists []. simpl. repeat split; auto.
  - rewrite for_loop_snoc.
    destruct IH as [(rest & Hperm & Hord & Hrest) Hmono].
    destruct (for_loop values (first, second)) as [f s]. cbn [fst snd] in *.
    destruct (for_body_keeps_top2 f s val Hord)
      as (f' & s' & d & -> & Hord' & Hs & Hd & Hp).
    split; [|simpl; lia].
    exists (d :: rest). simpl. repeat split; [|assumption|].
    + change (Permutation ([f'; s'; d] ++ rest) ((first :: second :: values) ++ [val])).
      rewrite Hp, <- Hperm.
      change (Permutation ([f; s] ++ [val] ++ rest) ((f :: s :: rest) ++ [val])).
      rewrite (Permutation_app_comm [val] rest). now rewrite app_assoc.
    + constructor; [assumption|].
      eapply List.Forall_impl; [|exact Hrest]. simpl. intros; lia.
Qed.

Lemma Forall_HdRel {A : Type} (R : relation A) (a : A) (l : list A) :
  Forall (R a) l -> HdRel R a l.
Proof. destruct 1; now constructor. Qed.

Lemma Sorted_weaken {A : Type} (R R' : relation A) (l : list A) :
  (forall x y, R x y -> R' x y) -> Sorted R l -> Sorted R' l.
Proof.
  intros HR. induction 1 as [|x l Hl IH Hx]; constructor; [assumption|].
  destruct Hx; constructor; auto.
Qed.

(** The slots are the first two entries of the descending arrangement. *)
Lemma top2_descending (first second : Z) (l d : list Z) :
  top2 (first, second) l -> Sorted Z.ge d -> Permutation d l ->
  exists rest, d = first :: second :: rest.
Proof.
  intros (rest & Hperm & Hord & Hrest) Hd Hdl. simpl in *.
  exists (sorted_desc rest). apply descending_unique; [assumption| |].
  - constructor; [constructor|].
    + apply sorted_desc_Sorted.
    + apply Forall_HdRel.
      rewrite (sorted_desc_Permutation rest).
      eapply List.Forall_impl; [|exact Hrest]. simpl. intros; lia.
    + constructor. lia.
  - now rewrite Hdl, <- Hperm, (sorted_desc_Permutation rest).
Qed.

(** The slots are the last two entries of the ascending arrangement. *)
Lemma top2_ascending (first second : Z) (l a : list Z) :
  top2 (first, second) l -> Sorted Z.le a -> Permutation a l ->
  exists rest, a = rest ++ [second; first].
Proof.
  intros Htop Ha Hal.
  destruct (top2_descending first second l (reverse a) Htop) as [rest Hrest].
  - apply (Sorted_weaken (flip Z.le)); [unfold flip; intros; lia|].
    now apply Sorted_reverse.
  - now rewrite reverse_Permutation.
  - exists (reverse rest).
    rewrite <- (reverse_involutive a), Hrest.
    rewrite !reverse_cons. now rewrite <- !app_assoc.
Qed.

(** Two iterations of the body may be exchanged. *)
Lemma for_body_comm (st : Z * Z) (a b : Z) :
  for_body (for_body st a) b = for_body (for_body st b) a.
Proof.
  destruct st as [first second]. unfold for_body.
  repeat match goal with
         | |- context [?x >? ?y] => destruct (Z.gtb_spec x y)
         end; try reflexivity; try lia; f_equal; lia.
Qed.

Lemma for_loop_Permutation (l l' : list Z) :
  Permutation l l' -> forall st, for_loop l st = for_loop l' st.
Proof.
  induction 1 as [|x l l' _ IH|x y l|l l' l'' _ IH1 _ IH2]; intros st.
  - reflexivity.
  - apply IH.
  - simpl. unfold for_loop. simpl. now rewrite for_body_comm.
  - now rewrite IH1.
Qed.

(** Values not above the sentinel never enter a slot. *)
Lemma for_loop_below_sentinel (values : list Z) :
  Forall (fun v => v <= -1) values -> for_loop values (-1, -1) = (-1, -1).
Proof.
  induction 1 as [|v values Hv _ IH]; [reflexivity|].
  unfold for_loop in *. simpl.
  destruct (Z.gtb_spec v (-1)); [lia | exact IH].
Qed.

Lemma second_for_slot (values : list Z) :
  second_for values = Return (snd (for_loop values (-1, -1))).
Proof. unfold second_for. now destruct (for_loop values (-1, -1)). Qed.

Lemma second_sort_long (values : list Z) (d : Z) :
  (2 <= length values)%nat ->
  second_sort values = Return (nth (length values - 2) (sorted values) d).
Proof.
  intros H. unfold second_sort.
  rewrite (getitem_minus2 _ d); rewrite sorted_length; [reflexivity | assumption].
Qed.

Lemma second_sort_short (values : list Z) :
  (length values < 2)%nat -> second_sort values = Raise IndexError.
Proof.
  intros H. unfold second_sort. apply getitem_minus2_short.
  now rewrite sorted_length.
Qed.

(** With no value below the sentinel and at least two values, the loop ends
    with the second-to-last entry of the sorted list in [second]. *)
Lemma second_for_second_sort (values : list Z) :
  (2 <= length values)%nat ->
  Forall (fun v => -1 <= v) values ->
  second_for values = second_sort values.
Proof.
  intros Hlen Hge.
  rewrite second_for_slot, (second_sort_long values 0 Hlen). f_equal.
  destruct (for_loop_top2 values (-1) (-1)) as [Htop _]; [lia|].
  destruct (for_loop values (-1, -1)) as [f s]. cbn [snd].
  destruct (top2_ascending f s _ (-1 :: -1 :: sorted values) Htop) as [rest Hrest].
  - constructor; [constructor|].
    + apply sorted_Sorted.
    + apply Forall_HdRel. now rewrite (sorted_Permutation values).
    + now constructor.
  - now rewrite (sorted_Permutation values).
  - assert (Hl : length rest = length values).
    { apply (f_equal (@length Z)) in Hrest.
      rewrite length_app in Hrest. simpl in Hrest.
      rewrite sorted_length in Hrest. lia. }
    transitivity (nth (length values) (-1 :: -1 :: sorted values) 0).
    + rewrite Hrest, app_nth2 by lia.
      now replace (length values - length rest)%nat with 0%nat by lia.
    + destruct (length values) as [|[|n]]; [lia..|].
      simpl. now rewrite Nat.sub_0_r.
Qed.

Lemma filter_Permutation_bool {A : Type} (p : A -> bool) (l l' : list A) :
  Permutation l l' -> Permutation (List.filter p l) (List.filter p l').
Proof.
  induction 1 as [|x l l' _ IH|x y l|l l' l'' _ IH1 _ IH2]; simpl.
  - constructor.
  - destruct (p x); [now constructor | assumption].
  - destruct (p x), (p y); try reflexivity. apply perm_swap.
  - now rewrite IH1.
Qed.

Lemma Sorted_ge_snoc (l : list Z) (c : Z) :
  Sorted Z.ge l -> Forall (fun x => c <= x) l -> Sorted Z.ge (l ++ [c]).
Proof.
  induction 1 as [|x l Hl IH Hx]; intros Hc; simpl; [repeat constructor|].
  inversion Hc as [|? ? Hxc Hlc]; subst.
  constructor; [now apply IH|].
  destruct Hx; simpl; constructor; [lia | assumption].
Qed.

(** Dropping the values below the sentinel does not disturb the slots. *)
Lemma top2_filter_sentinel (first second : Z) (values : list Z) :
  -1 <= second ->
  top2 (first, second) (-1 :: -1 :: values) ->
  top2 (first, second)
       (-1 :: -1 :: List.filter (fun v => -1 <=? v) values).
Proof.
  intros Hs (rest & Hperm & Hord & Hrest). cbn [fst snd] in *.
  exists (List.filter (fun v => -1 <=? v) rest). cbn [fst snd].
  repeat split; [|assumption|].
  - apply (filter_Permutation_bool (fun v => -1 <=? v)) in Hperm.
    simpl in Hperm.
    destruct (Z.leb_spec (-1) first); [|lia].
    destruct (Z.leb_spec (-1) second); [|lia].
    exact Hperm.
  - apply List.Forall_forall. intros x Hx.
    apply List.filter_In in Hx as [Hx _].
    now apply (proj1 (List.Forall_forall _ _) Hrest).
Qed.

Lemma second_for_max_sentinel (values : list Z) :
  snd (for_loop values (-1, -1))
  = max_sentinel (second_largest (List.filter (fun v => -1 <=? v) values)).
Proof.
  destruct (for_loop_top2 values (-1) (-1)) as [Htop Hmono]; [lia|].
  destruct (for_loop values (-1, -1)) as [f s]. cbn [snd] in *.
  apply (top2_filter_sentinel f s values Hmono) in Htop.
  set (kept := List.filter (fun v => -1 <=? v) values) in *.
  assert (Hkept : Forall (fun x => -1 <= x) (sorted_desc kept)).
  { rewrite (sorted_desc_Permutation kept). apply List.Forall_forall.
    intros x Hx. apply List.filter_In in Hx as [_ Hx]. now apply Z.leb_le. }
  destruct (top2_descending f s _ (sorted_desc kept ++ [-1; -1]) Htop)
    as [rest Hrest].
  - change (Sorted Z.ge (sorted_desc kept ++ [-1] ++ [-1])).
    rewrite app_assoc. apply Sorted_ge_snoc.
    + apply Sorted_ge_snoc; [apply sorted_desc_Sorted | assumption].
    + apply List.Forall_app. split; [assumption | now repeat constructor].
  - rewrite (sorted_desc_Permutation kept).
    change (Permutation (kept ++ [-1; -1]) ([-1; -1] ++ kept)).
    apply Permutation_app_comm.
  - unfold second_largest.
    destruct (sorted_desc kept) as [|a [|b t]]; simpl in *.
    + now inversion Hrest.
    + now inversion Hrest.
    + inversion Hrest; subst. inversion Hkept as [|? ? _ Ht]; subst.
      inversion Ht; subst. lia.
Qed.

(** * The claims *)

(** C1, as stated: on [[5, 5]] [second_for] returns the sentinel [-1] while
    [second_sort] returns [5].  This fails: the second [5] is not greater than
    [first = 5], but it is greater than [second = -1], so the [elif] branch
    stores it. *)
Lemma C1_tie_divergence_refuted :
  ~ (second_for [5; 5] = Return (-1)
     /\ second_sort [5; 5] = Return 5
     /\ second_for [5; 5] <> second_sort [5; 5]).
Proof. intros (H & _ & _). vm_compute in H. discriminate H. Qed.

(** C1, amended: on [[5, 5]] [second_for] returns [5] and [second_sort]
    returns [5]; the two functions agree on this input. *)
Theorem C1_tie_agreement :
  second_for [5; 5] = Return 5
  /\ second_sort [5; 5] = Return 5
  /\ second_for [5; 5] = second_sort [5; 5].
Proof. repeat split. Qed.

(** C2: for every sequence of length at least 2 whose elements are pairwise
    distinct and all strictly greater than [-1], [second_for] and
    [second_sort] return the same value. *)
Theorem C2_oracle_agreement (values : list Z) :
  (2 <= length values)%nat ->
  NoDup values ->
  Forall (fun v => -1 < v) values ->
  second_for values = second_sort values.
Proof.
  intros Hlen _ Hpos. apply second_for_second_sort; [assumption|].
  eapply List.Forall_impl; [|exact Hpos]. simpl; intros; lia.
Qed.

Lemma C2_oracle_agreement_witness :
  second_for [4; 0; 7; 2] = second_sort [4; 0; 7; 2].
Proof.
  apply (C2_oracle_agreement [4; 0; 7; 2]).
  - simpl. lia.
  - repeat constructor; rewrite ?list_elem_of_In; simpl; intuition lia.
  - repeat constructor; lia.
Defined.

(** C3: [second_for] gives the same result on every permutation of a
    sequence; the result depends on the multiset of values only. *)
Theorem C3_order_invariance (values permuted : list Z) :
  Permutation values permuted ->
  second_for permuted = second_for values.
Proof.
  intros Hperm. unfold second_for.
  now rewrite (for_loop_Permutation values permuted Hperm).
Qed.

Lemma C3_order_invariance_witness :
  second_for [9; 3; 4] = second_for [3; 4; 9].
Proof.
  apply (C3_order_invariance [3; 4; 9] [9; 3; 4]).
  change (Permutation ([3; 4] ++ [9]) ([9] ++ [3; 4])).
  apply Permutation_app_comm.
Defined.

(** C4: [second_sort] raises [IndexError] exactly when its input has fewer
    than two elements, returns a value exactly when it has at least two, and
    in particular raises on the empty and on every one-element sequence. *)
Theorem C4_second_sort_index_error :
  (forall values,
      second_sort values = Raise IndexError <-> (length values < 2)%nat)
  /\ (forall values,
         (exists v, second_sort values = Return v) <-> (2 <= length values)%nat)
  /\ second_sort [] = Raise IndexError
  /\ (forall x, second_sort [x] = Raise IndexError).
Proof.
  split; [|split; [|split]].
  - intros values. split.
    + intros H.
      destruct (Nat.lt_ge_cases (length values) 2) as [Hlt|Hge]; [assumption|].
      rewrite (second_sort_long values 0 Hge) in H. discriminate H.
    + apply second_sort_short.
  - intros values. split.
    + intros [v H].
      destruct (Nat.lt_ge_cases (length values) 2) as [Hlt|Hge]; [|assumption].
      rewrite (second_sort_short values Hlt) in H. discriminate H.
    + intros H. eexists. apply (second_sort_long values 0 H).
  - reflexivity.
  - intros x. apply second_sort_short. simpl. lia.
Qed.





(** C6: [second_for] on [[-5, -3]] returns [-1], not [-3]; whenever every
    element is below the sentinel [-1], the sentinel wins every comparison
    and the result is [-1]. *)
Theorem C6_sentinel_wins :
  second_for [-5; -3] = Return (-1)
  /\ second_for [-5; -3] <> Return (-3)
  /\ (forall values,
         Forall (fun v => v < -1) values -> second_for values = Return (-1)).
Proof.
  split; [reflexivity|]. split; [discriminate|].
  intros values Hlow. rewrite second_for_slot, for_loop_below_sentinel.
  - reflexivity.
  - eapply List.Forall_impl; [|exact Hlow]. simpl; intros; lia.
Qed.

Lemma C6_sentinel_wins_witness : second_for [-9; -2; -4] = Return (-1).
Proof.
  apply (proj2 (proj2 C6_sentinel_wins) [-9; -2; -4]).
  repeat constructor; lia.
Defined.

(** C7: for every sequence of length at least 2, [second_sort] returns the
    element at index [length - 2] of the ascending arrangement of the input,
    which is what any (stable) ascending sort produces. *)
Theorem C7_second_sort_second_to_last (values arranged : list Z) :
  (2 <= length values)%nat ->
  Sorted Z.le arranged ->
  Permutation arranged values ->
  exists v,
    nth_error arranged (length values - 2) = Some v
    /\ second_sort values = Return v.
Proof.
  intros Hlen Hsorted Hperm.
  assert (arranged = sorted values) as ->.
  { apply ascending_unique; [assumption | apply sorted_Sorted |].
    now rewrite (sorted_Permutation values). }
  exists (nth (length values - 2) (sorted values) 0). split.
  - apply nth_error_nth'. rewrite sorted_length. lia.
  - now apply second_sort_long.
Qed.

Lemma C7_second_sort_second_to_last_witness :
  exists v, nth_error [1; 2; 2; 8] (length [2; 8; 1; 2] - 2) = Some v
            /\ second_sort [2; 8; 1; 2] = Return v.
Proof.
  apply (C7_second_sort_second_to_last [2; 8; 1; 2] [1; 2; 2; 8]).
  - simpl. lia.
  - repeat constructor; lia.
  - exact (sorted_Permutation [2; 8; 1; 2]).
Defined.

(** C8: on [[3, 1, 4, 1, 5, 9, 2, 6]] both [second_for] and [second_sort]
    return [6]. *)
Theorem C8_unsorted_sample :
  second_for [3; 1; 4; 1; 5; 9; 2; 6] = Return 6
  /\ second_sort [3; 1; 4; 1; 5; 9; 2; 6] = Return 6
  /\ sorted [3; 1; 4; 1; 5; 9; 2; 6] = [1; 1; 2; 3; 4; 5; 6; 9].
Proof. repeat split. Qed.

(** C9: [second_sort] does not modify its input: after the call the caller's
    list object holds the elements it held before, in the same order, every
    other object of the store is unchanged too, and the one effect is the
    allocation of the sorted copy. *)
Theorem C9_second_sort_frame
    (values : loc) (h : gmap loc (list Z)) (l : list Z) :
  h !! values = Some l ->
  exists h',
    second_sort_st values h = Some (second_sort l, h')
    /\ h' !! values = Some l
    /\ (forall p, p ∈ dom h -> h' !! p = h !! p)
    /\ exists copy, (copy ∉ dom h) /\ h' = <[copy := (sorted l)]> h.
Proof.
  intros Hl.
  pose proof (is_fresh (dom h)) as Hfresh.
  assert (Hne : forall p, p ∈ dom h -> fresh (dom h) <> p).
  { intros p Hp Heq. subst p. contradiction. }
  exists (<[fresh (dom h) := (sorted l)]> h).
  split; [|split; [|split]].
  - unfold second_sort_st, sorted_st, alloc. rewrite Hl. simpl.
    now rewrite lookup_insert_eq.
  - rewrite lookup_insert_ne; [assumption|].
    apply Hne, elem_of_dom. now exists l.
  - intros p Hp. apply lookup_insert_ne. now apply Hne.
  - exists (fresh (dom h)). split; [assumption | reflexivity].
Qed.

Lemma C9_second_sort_frame_witness :
  exists h',
    second_sort_st 1%positive {[ 1%positive := [3; 1; 2] ]}
    = Some (second_sort [3; 1; 2], h')
    /\ h' !! 1%positive = Some [3; 1; 2]
    /\ (forall p, p ∈ dom ({[ 1%positive := [3; 1; 2] ]} : gmap loc (list Z)) ->
        h' !! p = ({[ 1%positive := [3; 1; 2] ]} : gmap loc (list Z)) !! p)
    /\ exists copy,
        (copy ∉ dom ({[ 1%positive := [3; 1; 2] ]} : gmap loc (list Z)))
        /\ h' = <[copy := (sorted [3; 1; 2])]> {[ 1%positive := [3; 1; 2] ]}.
Proof.
  apply (C9_second_sort_frame 1%positive {[ 1%positive := [3; 1; 2] ]} [3; 1; 2]).
  reflexivity.
Defined.

(** C10: [second_for] returns the entry at index 1 of the descending
    arrangement of the input extended with two copies of [-1]; equivalently,
    the larger of [-1] and the second-largest element, counted with
    multiplicity, of the input without its elements below [-1] (which is
    [-1] when fewer than two elements are left). *)
Theorem C10_second_for_characterisation (values arranged : list Z) :
  Sorted Z.ge arranged ->
  Permutation arranged (values ++ [-1; -1]) ->
  exists v,
    second_for values = Return v
    /\ nth_error arranged 1 = Some v
    /\ second_largest (values ++ [-1; -1]) = Some v
    /\ v = max_sentinel
             (second_largest (List.filter (fun x => -1 <=? x) values)).
Proof.
  intros Hsorted Hperm.
  exists (snd (for_loop values (-1, -1))).
  split; [apply second_for_slot|].
  split; [|split; [|apply second_for_max_sentinel]].
  - destruct (for_loop_top2 values (-1) (-1)) as [Htop _]; [lia|].
    destruct (for_loop values (-1, -1)) as [f s]. cbn [snd].
    destruct (top2_descending f s _ arranged Htop Hsorted) as [rest ->];
      [|reflexivity].
    rewrite Hperm.
    change (Permutation (values ++ [-1; -1]) ([-1; -1] ++ values)).
    apply Permutation_app_comm.
  - destruct (for_loop_top2 values (-1) (-1)) as [Htop _]; [lia|].
    destruct (for_loop values (-1, -1)) as [f s]. cbn [snd].
    unfold second_largest.
    destruct (top2_descending f s _ (sorted_desc (values ++ [-1; -1])) Htop)
      as [rest ->]; [apply sorted_desc_Sorted | | reflexivity].
    rewrite (sorted_desc_Permutation (values ++ [-1; -1])).
    change (Permutation (values ++ [-1; -1]) ([-1; -1] ++ values)).
    apply Permutation_app_comm.
Qed.

Lemma C10_second_for_characterisation_witness :
  exists v,
    second_for [5; -3; 2; 5] = Return v
    /\ nth_error [5; 5; 2; -1; -1; -3] 1 = Some v
    /\ second_largest ([5; -3; 2; 5] ++ [-1; -1]) = Some v
    /\ v = max_sentinel
             (second_largest (List.filter (fun x => -1 <=? x) [5; -3; 2; 5])).
Proof.
  apply (C10_second_for_characterisation [5; -3; 2; 5] [5; 5; 2; -1; -1; -3]).
  - repeat constructor; lia.
  - exact (sorted_desc_Permutation ([5; -3; 2; 5] ++ [-1; -1])).
Defined.


(** * Further properties of the two functions *)

Lemma for_loop_app (values more : list Z) (st : Z * Z) :
  for_loop (values ++ more) st = for_loop more (for_loop values st).
Proof. unfold for_loop. apply fold_left_app. Qed.

Lemma filter_nothing {A : Type} (p : A -> bool) (l : list A) :
  Forall (fun x => p x = false) l -> List.filter p l = [].
Proof.
  induction 1 as [|x l Hx _ IH]; [reflexivity|].
  simpl. now rewrite Hx.
Qed.

Lemma filter_length_Permutation {A : Type} (p : A -> bool) (l l' : list A) :
  Permutation l l' -> length (List.filter p l) = length (List.filter p l').
Proof. intros H. now apply Permutation_length, filter_Permutation_bool. Qed.

(** With two elements or more, the first two entries of the descending
    arrangement are the two largest, and [second_sort] returns the second. *)
Lemma second_sort_descending (values : list Z) :
  (2 <= length values)%nat ->
  exists a b t,
    sorted_desc values = a :: b :: t
    /\ top2 (a, b) values
    /\ second_sort values = Return b.
Proof.
  intros Hlen.
  pose proof (sorted_desc_Sorted values) as Hs.
  pose proof (sorted_desc_Permutation values) as Hp.
  pose proof (Permutation_length Hp) as Hl.
  destruct (sorted_desc values) as [|a [|b t]]; simpl in Hl; [lia..|].
  exists a, b, t. split; [reflexivity|].
  assert (Htop : top2 (a, b) values).
  { apply Sorted_StronglySorted in Hs; [|apply _].
    apply StronglySorted_inv in Hs as [Hs Ha].
    apply StronglySorted_inv in Hs as [_ Hb].
    exists t. cbn [fst snd]. repeat split; [assumption| |].
    - inversion Ha; subst. lia.
    - eapply List.Forall_impl; [|exact Hb]. simpl; intros; lia. }
  split; [assumption|].
  destruct (top2_ascending a b values (sorted values) Htop) as [rest Hrest];
    [apply sorted_Sorted | apply sorted_Permutation |].
  rewrite (second_sort_long values 0 Hlen), Hrest. f_equal.
  assert (length values = length rest + 2)%nat as ->.
  { rewrite <- (sorted_length values), Hrest, length_app. reflexivity. }
  rewrite app_nth2 by lia.
  now replace (length rest + 2 - 2 - length rest)%nat with 0%nat by lia.
Qed.

Lemma second_sort_returns_long (values : list Z) (v : Z) :
  second_sort values = Return v -> (2 <= length values)%nat.
Proof.
  intros H. destruct (Nat.lt_ge_cases (length values) 2) as [Hlt|Hge];
    [|assumption].
  rewrite (second_sort_short values Hlt) in H. discriminate H.
Qed.

(** Entering the sentinel twice into a descending list with two entries or
    more puts the larger of the sentinel and the old second entry second. *)
Lemma insert_sentinels_second (a b : Z) (t : list Z) :
  b <= a ->
  exists f rest,
    insert_sorted Z.geb (-1) (insert_sorted Z.geb (-1) (a :: b :: t))
    = f :: Z.max (-1) b :: rest.
Proof.
  intros Hab. simpl.
  destruct (Z.geb_spec (-1) a) as [Ha|Ha]; simpl.
  - exists (-1), (a :: b :: t). f_equal. f_equal. lia.
  - destruct (Z.geb_spec (-1) b) as [Hb|Hb]; simpl.
    + destruct (Z.geb_spec (-1) a); [lia|]. simpl.
      exists a, (-1 :: b :: t). f_equal. f_equal. lia.
    + destruct (Z.geb_spec (-1) a); [lia|].
      destruct (Z.geb_spec (-1) b); [lia|].
      exists a, (insert_sorted Z.geb (-1) (insert_sorted Z.geb (-1) t)).
      f_equal. f_equal. lia.
Qed.

Lemma insert_sorted_ge_Sorted (x : Z) (l : list Z) :
  Sorted Z.ge l -> Sorted Z.ge (insert_sorted Z.geb x l).
Proof.
  apply insert_sorted_Sorted; intros a b H.
  - apply Z.geb_le in H. lia.
  - rewrite Z.geb_leb in H. apply Z.leb_gt in H. lia.
Qed.

(** The loop ends with the larger of the sentinel and [second_sort]'s value
    in [second]. *)
Lemma for_loop_max_second_sort (values : list Z) :
  (2 <= length values)%nat ->
  exists v,
    second_sort values = Return v
    /\ snd (for_loop values (-1, -1)) = Z.max (-1) v.
Proof.
  intros Hlen.
  destruct (second_sort_descending values Hlen)
    as (a & b & t & Hdesc & (_ & _ & Hab & _) & Hsort).
  cbn [fst snd] in Hab.
  exists b. split; [assumption|].
  destruct (for_loop_top2 values (-1) (-1)) as [Htop _]; [lia|].
  destruct (for_loop values (-1, -1)) as [f s]. cbn [snd].
  destruct (insert_sentinels_second a b t Hab) as (f' & rest' & Hins).
  destruct (top2_descending f s _
              (insert_sorted Z.geb (-1) (insert_sorted Z.geb (-1) (a :: b :: t)))
              Htop) as [rest Hrest].
  - do 2 apply insert_sorted_ge_Sorted. rewrite <- Hdesc.
    apply sorted_desc_Sorted.
  - rewrite !insert_sorted_Permutation, <- Hdesc.
    now rewrite (sorted_desc_Permutation values).
  - rewrite Hins in Hrest. now inversion Hrest.
Qed.

(** X1: [second_for] never returns a value below [-1], and what it returns
    is [-1] or an element of the input. *)
Theorem second_for_range (values : list Z) :
  exists v,
    second_for values = Return v
    /\ -1 <= v
    /\ (v = -1 \/ In v values).
Proof.
  exists (snd (for_loop values (-1, -1))).
  split; [apply second_for_slot|].
  destruct (for_loop_top2 values (-1) (-1))
    as [(rest & Hperm & _ & _) Hmono]; [lia|].
  destruct (for_loop values (-1, -1)) as [f s]. cbn [fst snd] in *.
  split; [assumption|].
  assert (Hin : In s (-1 :: -1 :: values)).
  { apply (Permutation_in _ Hperm). right. now left. }
  destruct Hin as [<-|[<-|Hin]]; auto.
Qed.

(** X2: [second_for] returns the sentinel [-1] exactly when fewer than two
    elements of the input are greater than [-1]. *)
Theorem second_for_sentinel_iff (values : list Z) :
  second_for values = Return (-1)
  <-> (length (List.filter (fun v => (-1 <? v)%Z) values) < 2)%nat.
Proof.
  rewrite second_for_slot.
  destruct (for_loop_top2 values (-1) (-1))
    as [(rest & Hperm & Hord & Hrest) Hmono]; [lia|].
  destruct (for_loop values (-1, -1)) as [f s]. cbn [fst snd] in *.
  apply (filter_length_Permutation (fun v => -1 <? v)) in Hperm.
  change (List.filter (fun v => -1 <? v) (-1 :: -1 :: values))
    with (List.filter (fun v => -1 <? v) values) in Hperm.
  rewrite <- Hperm. clear Hperm. simpl.
  split.
  - intros [= ->].
    rewrite (filter_nothing (fun v => -1 <? v) rest).
    + destruct (-1 <? f); simpl; lia.
    + eapply List.Forall_impl; [|exact Hrest]. simpl. intros x Hx.
      destruct (Z.ltb_spec (-1) x); [lia | reflexivity].
  - intros Hfew. f_equal.
    destruct (Z.ltb_spec (-1) s) as [Hs|Hs]; [|lia].
    destruct (Z.ltb_spec (-1) f) as [Hf|Hf]; [|lia].
    simpl in Hfew. lia.
Qed.

(** X3: appending further values never lowers the result of
    [second_for]. *)
Theorem second_for_append_monotone (values more : list Z) :
  exists a b,
    second_for values = Return a
    /\ second_for (values ++ more) = Return b
    /\ a <= b.
Proof.
  exists (snd (for_loop values (-1, -1))),
         (snd (for_loop (values ++ more) (-1, -1))).
  split; [apply second_for_slot|]. split; [apply second_for_slot|].
  rewrite for_loop_app.
  destruct (for_loop_top2 values (-1) (-1)) as [(_ & _ & Hord & _) _]; [lia|].
  destruct (for_loop values (-1, -1)) as [f s]. cbn [fst snd] in *.
  now destruct (for_loop_top2 more f s Hord) as [_ Hmono].
Qed.

(** X4: [second_sort] gives the same outcome, value or [IndexError], on
    every permutation of a sequence. *)
Theorem second_sort_order_invariance (values permuted : list Z) :
  Permutation values permuted ->
  second_sort permuted = second_sort values.
Proof.
  intros Hperm. unfold second_sort.
  assert (sorted permuted = sorted values) as ->; [|reflexivity].
  apply ascending_unique; [apply sorted_Sorted..|].
  now rewrite (sorted_Permutation permuted), (sorted_Permutation values).
Qed.

Lemma second_sort_order_invariance_witness :
  second_sort [9; 3; 4; 3] = second_sort [3; 4; 3; 9].
Proof.
  apply (second_sort_order_invariance [3; 4; 3; 9] [9; 3; 4; 3]).
  change (Permutation ([3; 4; 3] ++ [9]) ([9] ++ [3; 4; 3])).
  apply Permutation_app_comm.
Defined.

(** X5: a value returned by [second_sort] is an element of the input, at
    most one element of the input is greater than it, and at least two are
    greater than or equal to it. *)
Theorem second_sort_rank (values : list Z) (v : Z) :
  second_sort values = Return v ->
  In v values
  /\ (length (List.filter (fun x => (v <? x)%Z) values) <= 1)%nat
  /\ (2 <= length (List.filter (fun x => (v <=? x)%Z) values))%nat.
Proof.
  intros Hv.
  destruct (second_sort_descending values (second_sort_returns_long _ _ Hv))
    as (a & b & t & _ & (rest & Hperm & Hab & Hrest) & Hb).
  rewrite Hb in Hv. injection Hv as ->. cbn [fst snd] in *.
  split; [|split].
  - apply (Permutation_in _ Hperm). right. now left.
  - rewrite <- (filter_length_Permutation _ _ _ Hperm). simpl.
    rewrite (filter_nothing (fun x => v <? x) rest).
    + rewrite Z.ltb_irrefl. destruct (v <? a); simpl; lia.
    + eapply List.Forall_impl; [|exact Hrest]. simpl. intros x Hx.
      destruct (Z.ltb_spec v x); [lia | reflexivity].
  - rewrite <- (filter_length_Permutation _ _ _ Hperm). simpl.
    rewrite Z.leb_refl.
    destruct (Z.leb_spec v a); [simpl; lia | lia].
Qed.

Lemma second_sort_rank_witness :
  In 4 [4; 1; 7; 4]
  /\ (length (List.filter (fun x => (4 <? x)%Z) [4; 1; 7; 4]%Z) <= 1)%nat
  /\ (2 <= length (List.filter (fun x => (4 <=? x)%Z) [4; 1; 7; 4]%Z))%nat.
Proof.
  apply (second_sort_rank [4; 1; 7; 4] 4). reflexivity.
Defined.

(** X6: [second_sort] returns a value exactly when the descending sort of
    the input has an entry at index 1, and then returns that entry:
    [sorted(values)[-2]] is [sorted(values, reverse=True)[1]]. *)
Theorem second_sort_second_largest (values : list Z) (v : Z) :
  second_sort values = Return v <-> second_largest values = Some v.
Proof.
  unfold second_largest. split; intros Hv.
  - destruct (second_sort_descending values (second_sort_returns_long _ _ Hv))
      as (a & b & t & -> & _ & Hb).
    rewrite Hb in Hv. now injection Hv as ->.
  - assert (Hlen : (2 <= length values)%nat).
    { rewrite <- (Permutation_length (sorted_desc_Permutation values)).
      destruct (sorted_desc values) as [|a [|b t]]; simpl in *;
        [discriminate.. | lia]. }
    destruct (second_sort_descending values Hlen) as (a & b & t & Hd & _ & Hb).
    rewrite Hd in Hv. simpl in Hv. injection Hv as <-. exact Hb.
Qed.

(** X7: on every sequence with two elements or more, [second_for] returns
    the larger of [-1] and the value [second_sort] returns. *)
Theorem second_for_max_second_sort (values : list Z) :
  (2 <= length values)%nat ->
  exists v,
    second_sort values = Return v
    /\ second_for values = Return (Z.max (-1) v).
Proof.
  intros Hlen.
  destruct (for_loop_max_second_sort values Hlen) as (v & Hv & Hs).
  exists v. split; [assumption|].
  now rewrite second_for_slot, Hs.
Qed.

Lemma second_for_max_second_sort_witness :
  exists v,
    second_sort [5; -3; -7] = Return v
    /\ second_for [5; -3; -7] = Return (Z.max (-1) v).
Proof.
  apply (second_for_max_second_sort [5; -3; -7]). simpl. lia.
Defined.

(** X8: when the largest element of the input is at least [-1] and occurs
    twice or more, both [second_for] and [second_sort] return it. *)
Theorem duplicate_maximum (values : list Z) (m : Z) :
  Forall (fun x => x <= m) values ->
  (2 <= length (List.filter (fun x => (x =? m)%Z) values))%nat ->
  -1 <= m ->
  second_for values = Return m /\ second_sort values = Return m.
Proof.
  intros Hmax Htwice Hm.
  assert (Hlen : (2 <= length values)%nat).
  { pose proof (filter_length_le (fun x => x =? m) values). lia. }
  destruct (for_loop_max_second_sort values Hlen) as (v & Hv & Hs).
  assert (v = m) as ->.
  { destruct (second_sort_descending values Hlen)
      as (a & b & t & _ & (rest & Hperm & Hab & Hrest) & Hb).
    rewrite Hb in Hv. injection Hv as ->. cbn [fst snd] in *.
    assert (Hvm : v <= m).
    { apply (proj1 (List.Forall_forall _ _) Hmax).
      apply (Permutation_in _ Hperm). right. now left. }
    destruct (Z.eq_dec v m) as [|Hne]; [assumption|].
    rewrite <- (filter_length_Permutation _ _ _ Hperm) in Htwice.
    simpl in Htwice.
    rewrite (filter_nothing (fun x => x =? m) rest) in Htwice.
    - destruct (Z.eqb_spec v m); [lia|].
      destruct (a =? m); simpl in Htwice; lia.
    - eapply List.Forall_impl; [|exact Hrest]. simpl. intros x Hx.
      destruct (Z.eqb_spec x m); [lia | reflexivity]. }
  split; [|assumption].
  rewrite second_for_slot, Hs. f_equal. lia.
Qed.

Lemma duplicate_maximum_witness :
  second_for [2; 8; 3; 8] = Return 8 /\ second_sort [2; 8; 3; 8] = Return 8.
Proof.
  apply (duplicate_maximum [2; 8; 3; 8] 8).
  - repeat constructor; lia.
  - simpl. lia.
  - lia.
Defined.

(** X9: [second_for] and [second_sort] have the same outcome exactly when
    [second_sort] returns a value that is at least [-1]. *)
Theorem agreement_iff (values : list Z) :
  second_for values = second_sort values
  <-> exists v, second_sort values = Return v /\ -1 <= v.
Proof.
  split.
  - intros Heq.
    destruct (Nat.lt_ge_cases (length values) 2) as [Hlt|Hge].
    + rewrite (second_sort_short values Hlt), second_for_slot in Heq.
      discriminate Heq.
    + destruct (for_loop_max_second_sort values Hge) as (v & Hv & Hs).
      exists v. split; [assumption|].
      rewrite second_for_slot, Hs, Hv in Heq. injection Heq as Heq. lia.
  - intros (v & Hv & Hge).
    destruct (for_loop_max_second_sort values (second_sort_returns_long _ _ Hv))
      as (v' & Hv' & Hs).
    rewrite Hv in Hv'. injection Hv' as <-.
    rewrite second_for_slot, Hs, Hv. f_equal. lia.
Qed.
